(** * uri.h: a minimal URI parser and serializer

    A shallow embedding of [uri.h] and the properties of its parser
    ([uri_parse]), its serializer ([uri_build]) and the accessors of the
    component store ([uri_set], [uri_get], [uri_remove], [uri_print],
    [uri_print_elements]).

    Representation.
    - A C string is the Rocq [string] of the characters that precede its
      terminator; the terminator itself is [EmptyString].  A [char const *]
      that points into such a string is the suffix it designates, so that
      [*p] is the head of the suffix and [p + 1] its tail.
    - A [char *] slot of the store is an [option string]: [None] is the null
      pointer.  The store copies every text on entry ([copy_string]) and owns
      the copy, so a slot is modelled by the text it holds.  The one pointer
      that outlives the block behind it is the result of [uri_remove], which
      has its own type.
    - An operation of the C program for which the language defines no
      result (a read through a null pointer, an index past the end of
      [data], a write past the end of an allocated buffer, a size that the
      [int] of [uri_build] cannot hold) yields [Undefined].
    - The lengths of strings are natural numbers; [int] has 32 bits
      ([INT_MAX]); [malloc] and [calloc] return a block whenever the size
      they are asked for is one the program computed without overflow. *)

From Stdlib Require Import List Arith NArith Bool Lia Ascii String.
From Stdlib Require DecimalString.
Import ListNotations.
Open Scope string_scope.

(** ** Outcomes and the store monad *)

Inductive result (A : Type) : Type :=
| Ok (a : A)
| Undefined.
Arguments Ok {A} a.
Arguments Undefined {A}.

(** [typedef enum { BUILD, SCHEME, ..., URI_END } uri_element_t;] *)
Inductive uri_element_t : Type :=
| BUILD | SCHEME | USERINFO | HOST | PORT | PATH | QUERY | FRAGMENT | URI_END.

(** [typedef struct uri_t { char *data[URI_END]; } uri_t;]
    The array has one entry for each enumerator below [URI_END]; the record
    names the entry [data[e]] after its enumerator. *)
Record uri_t : Type := mk_uri {
  build : option string;
  scheme : option string;
  userinfo : option string;
  host : option string;
  port : option string;
  path : option string;
  query : option string;
  fragment : option string
}.

(** A computation on a store passed by pointer ([uri_t *u]). *)
Definition M (A : Type) : Type := uri_t -> result (A * uri_t).

Definition ret {A} (a : A) : M A := fun u => Ok (a, u).

Definition bind {A B} (m : M A) (k : A -> M B) : M B :=
  fun u => match m u with
           | Ok (a, u') => k a u'
           | Undefined => Undefined
           end.

Notation "x <- m ;; k" := (bind m (fun x => k))
  (at level 61, m at next level, right associativity).
Notation "' pat <- m ;; k" := (bind m (fun x => match x with pat => k end))
  (at level 61, pat pattern, m at next level, right associativity).
Notation "m ;; k" := (bind m (fun _ => k))
  (at level 61, right associativity).

(** [u->data[e]] as an rvalue; [data[URI_END]] is past the end of the array. *)
Definition slot (u : uri_t) (e : uri_element_t) : result (option string) :=
  match e with
  | BUILD => Ok (build u)
  | SCHEME => Ok (scheme u)
  | USERINFO => Ok (userinfo u)
  | HOST => Ok (host u)
  | PORT => Ok (port u)
  | PATH => Ok (path u)
  | QUERY => Ok (query u)
  | FRAGMENT => Ok (fragment u)
  | URI_END => Undefined
  end.

Definition load (e : uri_element_t) : M (option string) :=
  fun u => match slot u e with Ok p => Ok (p, u) | Undefined => Undefined end.

(** [u->data[e] = c;] *)
Definition store (e : uri_element_t) (c : option string) : M unit :=
  fun u =>
    let '(mk_uri b s ui h po pa q f) := u in
    match e with
    | BUILD => Ok (tt, mk_uri c s ui h po pa q f)
    | SCHEME => Ok (tt, mk_uri b c ui h po pa q f)
    | USERINFO => Ok (tt, mk_uri b s c h po pa q f)
    | HOST => Ok (tt, mk_uri b s ui c po pa q f)
    | PORT => Ok (tt, mk_uri b s ui h c pa q f)
    | PATH => Ok (tt, mk_uri b s ui h po c q f)
    | QUERY => Ok (tt, mk_uri b s ui h po pa c f)
    | FRAGMENT => Ok (tt, mk_uri b s ui h po pa q c)
    | URI_END => Undefined
    end.

(** [calloc( 1, sizeof( uri_t ) )]: every slot is the null pointer. *)
Definition calloc_uri : uri_t :=
  mk_uri None None None None None None None None.

(** ** The component store *)

(** [copy_string( ptr, source )]: a fresh copy of [source], or the null
    pointer when [source] is null. *)
Definition copy_string (source : option string) : option string :=
  match source with
  | Some s => Some s
  | None => None
  end.

(** [void uri_set( uri_t *u, uri_element_t e, char const *data )] *)
Definition uri_set (e : uri_element_t) (data : option string) : M unit :=
  let c := copy_string data in
  _ <- load e ;;          (* if( u->data[e] ) free( u->data[e] ); *)
  store e c.

(** The two-pass construction of [uri_build]: the first pass adds up the
    size [n] of the buffer in an [int], the second writes into
    [malloc( n + 1 )] with [strcpy] and [strcat].  A buffer of capacity
    [cap] holds at most [cap] characters before its terminator. *)

(** The largest value of an [int] of 32 bits. *)
Definition INT_MAX : N := 2147483647.

(** A size stored in an [int]: a size above [INT_MAX] has no value there
    that the language defines. *)
Definition to_int (k : nat) : result nat :=
  if (N.of_nat k <=? INT_MAX)%N then Ok k else Undefined.

Definition rbind {A B} (r : result A) (k : A -> result B) : result B :=
  match r with
  | Ok a => k a
  | Undefined => Undefined
  end.

Notation "x <~ r ;; k" := (rbind r (fun x => k))
  (at level 61, r at next level, right associativity).

(** [if( p ) n += strlen( p ) + sep;] *)
Definition sized (p : option string) (sep : nat) (n : nat) : result nat :=
  match p with
  | Some s => to_int (n + (length s + sep))
  | None => Ok n
  end.

Definition strcpy (cap : nat) (src : option string) : result string :=
  match src with
  | None => Undefined
  | Some s => if (length s <=? cap)%nat then Ok s else Undefined
  end.

Definition strcat (cap : nat) (dest : string) (src : option string)
  : result string :=
  match src with
  | None => Undefined
  | Some s => if (length dest + length s <=? cap)%nat then Ok (dest ++ s)
              else Undefined
  end.

Definition present (p : option string) : bool :=
  match p with Some _ => true | None => false end.

(** The second pass of [uri_build] (lines 141-176), on a buffer of
    capacity [n]. *)
Definition build_buffer (u : uri_t) (n : nat) : result string :=
  b <~ strcpy n (scheme u) ;;
  b <~ strcat n b (Some ":") ;;
  b <~ (if present (host u) then
          b <~ strcat n b (Some "//") ;;
          b <~ (if present (userinfo u) then
                  b <~ strcat n b (userinfo u) ;;
                  strcat n b (Some "@")
                else Ok b) ;;
          b <~ strcat n b (host u) ;;
          (if present (port u) then
             b <~ strcat n b (Some ":") ;;
             strcat n b (port u)
           else Ok b)
        else Ok b) ;;
  b <~ (if present (path u) then strcat n b (path u) else Ok b) ;;
  b <~ (if present (query u) then
          b <~ strcat n b (Some "?") ;;
          strcat n b (query u)
        else Ok b) ;;
  (if present (fragment u) then
     b <~ strcat n b (Some "#") ;;
     strcat n b (fragment u)
   else Ok b).

(** The first pass of [uri_build] (lines 110-136): [int n = 0;] and the
    seven guarded additions. *)
Definition build_size (u : uri_t) : result nat :=
  let n := 0 in
  n <~ sized (scheme u) 1 n ;;
  n <~ sized (userinfo u) 1 n ;;
  n <~ sized (host u) 2 n ;;
  n <~ sized (port u) 1 n ;;
  n <~ sized (path u) 0 n ;;
  n <~ sized (query u) 1 n ;;
  n <~ sized (fragment u) 1 n ;;
  Ok n.

(** [void uri_build( uri_t *u )]: the size, [malloc( n + 1 )] with its
    [int] sum, the writes, and the assignment of line 178. *)
Definition uri_build : M unit :=
  fun u =>
    match (n <~ build_size u ;;
           _ <~ to_int (n + 1) ;;
           build_buffer u n) with
    | Ok b => store BUILD (Some b) u
    | Undefined => Undefined
    end.

(** [char * uri_get( uri_t *u )]: the result is the caller's copy. *)
Definition uri_get : M (option string) :=
  uri_build ;;
  b <- load BUILD ;;
  ret (copy_string b).

(** A pointer to a block that has been passed to [free]: nothing can be
    read through it, and it is no text to hand to [uri_set]. *)
Inductive freed : Type := Freed.

(** [char * uri_remove( uri_t *u, uri_element_t e )]: [data] is the pointer
    read from the slot (line 101).  The [uri_set] of line 102 finds the same
    pointer in [u->data[e]] and, when it is not null, passes it to [free]
    (lines 82-83) before it stores the null pointer.  The result is
    therefore the null pointer ([None]) when the slot was empty and a
    pointer to a freed block otherwise. *)
Definition uri_remove (e : uri_element_t) : M (option freed) :=
  data <- load e ;;
  uri_set e None ;;
  ret (option_map (fun _ => Freed) data).

(** [void uri_print( uri_t const *u )]: the text written to [stdout]. *)
Definition uri_print (u : uri_t) : string :=
  match build u with
  | Some b => b
  | None => ""
  end.

(** ** The parser *)

(** [!( *p )] *)
Definition at_end (p : string) : bool :=
  match p with
  | EmptyString => true
  | String _ _ => false
  end.

(** [*p == c], for a character [c] other than the terminator. *)
Definition at_char (p : string) (c : ascii) : bool :=
  match p with
  | EmptyString => false
  | String a _ => Ascii.eqb a c
  end.

(** [p + 1], for [p] not at the terminator (the parser never advances past
    the terminator). *)
Definition next (p : string) : string :=
  match p with
  | EmptyString => EmptyString
  | String _ p' => p'
  end.

(** [strchr( s, c )] for a character [c] other than the terminator: the
    suffix that starts at the first [c], or the null pointer. *)
Fixpoint strchr (s : string) (c : ascii) : option string :=
  match s with
  | EmptyString => None
  | String a s' => if Ascii.eqb a c then Some s else strchr s' c
  end.

(** [while( *working && !stop( *working ) ) working++;] *)
Fixpoint scan (stop : ascii -> bool) (working : string) : string :=
  match working with
  | EmptyString => working
  | String a working' => if stop a then working else scan stop working'
  end.

(** [char * copy_substring( char const *from, char const *to )], for [to]
    a pointer into the string at [from]: the [to - from] characters
    between the two. *)
Definition copy_substring (from to : string) : string :=
  substring 0 (length from - length to) from.

Definition is_one_of (stops : list ascii) (a : ascii) : bool :=
  existsb (Ascii.eqb a) stops.

(** The authority branch of [uri_parse] (lines 214-257), entered with
    [working] just past the two slashes.  [None]: the function has returned
    the store (lines 236 and 252); [Some (current, working)]: control reaches
    line 265 with these two cursors. *)
Definition parse_authority (working : string) : M (option (string * string)) :=
  let current := working in
  let working := scan (is_one_of ["@"; ":"; "/"]%char) working in
  '(current, working) <-
    (if at_char working "@" then
       let token := copy_substring current working in
       uri_set USERINFO (Some token) ;;
       let working := next working in
       let current := working in
       let working := scan (is_one_of [":"; "/"]%char) working in
       ret (current, working)
     else ret (current, working)) ;;
  let token := copy_substring current working in
  uri_set HOST (Some token) ;;
  if at_end working then ret None
  else
    working <-
      (if at_char working ":" then
         let working := next working in
         let current := working in
         let working := scan (is_one_of ["/"]%char) working in
         let token := copy_substring current working in
         uri_set PORT (Some token) ;;
         ret working
       else ret working) ;;
    if at_end working then ret None
    else
      let current := working in
      let working := scan (is_one_of ["?"; "#"]%char) working in
      ret (Some (current, working)).

(** Lines 265-296 of [uri_parse]: path, query, fragment and the final
    build. *)
Definition parse_path (current working : string) : M unit :=
  let token := copy_substring current working in
  uri_set PATH (Some token) ;;
  if at_end working then ret tt
  else
    let current := working in
    '(current, working) <-
      (if at_char working "?" then
         let working := scan (is_one_of ["#"]%char) working in
         let token := copy_substring current working in
         uri_set QUERY (Some token) ;;
         let current := working in
         ret (current, working)
       else ret (current, working)) ;;
    (if at_char working "#" then
       let working := scan (is_one_of []) working in
       let token := copy_substring current working in
       uri_set FRAGMENT (Some token)
     else ret tt) ;;
    uri_build.

(** Lines 207-298 of [uri_parse], with [working] at the first colon. *)
Definition parse_body (uri_s working : string) : M unit :=
  let current := uri_s in
  let token := copy_substring current working in
  uri_set SCHEME (Some token) ;;
  let working := next working in
  let current := working in
  cw <-
    (if at_char working "/" && at_char (next working) "/" then
       parse_authority (next (next working))
     else
       let working := scan (is_one_of ["/"]%char) working in
       ret (Some (current, working))) ;;
  match cw with
  | None => ret tt
  | Some (current, working) => parse_path current working
  end.

(** [uri_t * uri_parse( char const * uri_s )]: [Ok None] is the null
    pointer returned at line 205, [Ok (Some u)] the store returned at lines
    236, 252, 270 and 298. *)
Definition uri_parse (uri_s : string) : result (option uri_t) :=
  match strchr uri_s ":" with
  | None => Ok None
  | Some working =>
      match parse_body uri_s working calloc_uri with
      | Ok (_, uri) => Ok (Some uri)
      | Undefined => Undefined
      end
  end.

(** ** The canonical string, as the specification words it *)

(** A piece that is emitted only when its governing slot is present. *)
Definition piece (p : option string) (before after : string) : string :=
  match p with
  | Some s => before ++ s ++ after
  | None => ""
  end.

(** Scheme, colon, then the authority when the host is present (two
    slashes, userinfo and [@], host, colon and port), then the path as it
    is, then [?] and query, then [#] and fragment. *)
Definition canonical (u : uri_t) (scheme_text : string) : string :=
  scheme_text ++ ":"
  ++ match host u with
     | Some h => "//" ++ piece (userinfo u) "" "@" ++ h ++ piece (port u) ":" ""
     | None => ""
     end
  ++ piece (path u) "" ""
  ++ piece (query u) "?" ""
  ++ piece (fragment u) "#" "".

Definition with_build (u : uri_t) (b : option string) : uri_t :=
  mk_uri b (scheme u) (userinfo u) (host u) (port u) (path u) (query u)
    (fragment u).

(** ** Predicates on stores and computations *)

(** Every slot other than [data[e]] holds what it held. *)
Definition only_changes (e : uri_element_t) (u u' : uri_t) : Prop :=
  forall e', e' <> e -> slot u' e' = slot u e'.

(** The sum that the first pass of [uri_build] adds up, as a number. *)
Definition add_len (p : option string) (sep : nat) (n : nat) : nat :=
  match p with
  | Some s => n + (length s + sep)
  | None => n
  end.

Definition total_size (u : uri_t) : nat :=
  add_len (fragment u) 1
    (add_len (query u) 1
       (add_len (path u) 0
          (add_len (port u) 1
             (add_len (host u) 2
                (add_len (userinfo u) 1 (add_len (scheme u) 1 0)))))).

(** The size of the store and the terminator fit an [int]:
    [n + 1 <= INT_MAX]. *)
Definition fitsb (u : uri_t) : bool :=
  (N.of_nat (total_size u) <? INT_MAX)%N.

Definition build_fits (u : uri_t) : Prop :=
  (N.of_nat (total_size u) < INT_MAX)%N.


(** A text of [n] characters, none of them a delimiter. *)
Definition filler (n : nat) : string :=
  string_of_list_ascii (repeat "a"%char n).

(** A store whose scheme alone has [INT_MAX] characters. *)
Definition oversized_store : uri_t :=
  mk_uri None (Some (filler (N.to_nat INT_MAX))) None None None None None
    None.

(** The character [c] occurs in [s]. *)
Definition occurs (c : ascii) (s : string) : Prop :=
  In c (list_ascii_of_string s).

(** A store with all seven components, not yet built. *)
Definition example_store : uri_t :=
  mk_uri None (Some "http") (Some "user") (Some "host") (Some "80")
    (Some "/path") (Some "q") (Some "f").

(** ** Texts and stores the parser is run on *)

(** No character of [stops] occurs in [t]. *)
Definition free_of (stops : list ascii) (t : string) : Prop :=
  forall c, In c stops -> ~ occurs c t.

Definition opt_free_of (stops : list ascii) (p : option string) : Prop :=
  match p with
  | Some t => free_of stops t
  | None => True
  end.

(** [t] begins with the character [c]. *)
Definition begins_with (c : ascii) (t : string) : Prop :=
  exists r, t = String c r.

(** A store whose canonical string the parser takes apart again: the host
    [h] is present, no component holds a character at which the scan of an
    earlier component stops, a path begins with a slash, and a query or a
    fragment comes with a path. *)
Definition parseable (u : uri_t) (sc h : string) : Prop :=
  scheme u = Some sc /\ free_of [":"%char] sc /\
  host u = Some h /\ free_of [":"; "/"]%char h /\
  (userinfo u = None -> free_of ["@"%char] h) /\
  opt_free_of ["@"; ":"; "/"]%char (userinfo u) /\
  opt_free_of ["/"%char] (port u) /\
  match path u with
  | Some p => exists p', p = String "/" p' /\ free_of ["?"; "#"]%char p'
  | None => query u = None /\ fragment u = None
  end /\
  opt_free_of ["#"%char] (query u).

(** What the parser makes of the canonical string of a [parseable] store:
    the query and the fragment keep their delimiters, and the cache is built
    only when one of them is present. *)
Definition reparsed_slots (u : uri_t) (sc : string) : uri_t :=
  mk_uri None (Some sc) (userinfo u) (host u) (port u) (path u)
    (option_map (String "?") (query u))
    (option_map (String "#") (fragment u)).

Definition reparsed (u : uri_t) (sc : string) : uri_t :=
  if present (query u) || present (fragment u)
  then with_build (reparsed_slots u sc)
         (Some (canonical (reparsed_slots u sc) sc))
  else reparsed_slots u sc.

(** The slots of a store written one after the other as they are, with the
    delimiters the parser steps over: the colon after the scheme, the two
    slashes, the [@] after the userinfo and the colon before the port. *)
Definition joined (u : uri_t) : string :=
  piece (scheme u) "" ":"
  ++ match host u with
     | Some h => "//" ++ piece (userinfo u) "" "@" ++ h ++ piece (port u) ":" ""
     | None => ""
     end
  ++ piece (path u) "" ""
  ++ piece (query u) "" ""
  ++ piece (fragment u) "" "".

Definition opt_begins_with (c : ascii) (p : option string) : Prop :=
  match p with
  | Some t => begins_with c t
  | None => True
  end.

(** An input with every component, and the store [uri_parse] returns for
    it. *)
Definition sample_input : string := "http://user@host:80/path?q#f".

Definition sample_parsed : uri_t :=
  mk_uri (Some "http://user@host:80/path??q##f") (Some "http") (Some "user")
    (Some "host") (Some "80") (Some "/path") (Some "?q") (Some "#f").

(** A decision procedure for [free_of]. *)
Definition free_ofb (stops : list ascii) (t : string) : bool :=
  forallb (fun a => negb (is_one_of stops a)) (list_ascii_of_string t).

(** ** The dump of the slots *)

Definition newline : ascii := "010"%char.

(** [printf( "%d", i )] *)
Definition print_int (i : nat) : string :=
  DecimalString.NilEmpty.string_of_uint (Nat.to_uint i).

(** [printf( " - %s", u->data[i] )], guarded by [if( u->data[i] )]. *)
Definition element_text (p : option string) : string :=
  match p with
  | Some t => " - " ++ t
  | None => ""
  end.

(** One turn of the loop of [uri_print_elements]: the index, the slot if
    it is not null, a newline. *)
Definition print_element (i : nat) (p : option string) : string :=
  print_int i ++ element_text p ++ String newline "".

(** [void uri_print_elements( uri_t const *u )]: the text written to
    [stdout] by the turns [i = 0], ..., [i = URI_END - 1] of the loop. *)
Definition uri_print_elements (u : uri_t) : string :=
  print_element 0 (build u) ++ print_element 1 (scheme u)
  ++ print_element 2 (userinfo u) ++ print_element 3 (host u)
  ++ print_element 4 (port u) ++ print_element 5 (path u)
  ++ print_element 6 (query u) ++ print_element 7 (fragment u).

(** No slot holds a newline. *)
Definition plain (u : uri_t) : Prop :=
  opt_free_of [newline] (build u) /\ opt_free_of [newline] (scheme u) /\
  opt_free_of [newline] (userinfo u) /\ opt_free_of [newline] (host u) /\
  opt_free_of [newline] (port u) /\ opt_free_of [newline] (path u) /\
  opt_free_of [newline] (query u) /\ opt_free_of [newline] (fragment u).

(** ** Strings *)

Lemma length_append (a b : string) :
  length (a ++ b) = length a + length b.
Proof.
  induction a as [|c a IH]; simpl; [reflexivity | now rewrite IH].
Qed.

Lemma append_assoc (a b c : string) : (a ++ b) ++ c = a ++ (b ++ c).
Proof.
  induction a as [|x a IH]; simpl; [reflexivity | now rewrite IH].
Qed.

Lemma append_empty_r (a : string) : a ++ "" = a.
Proof.
  induction a as [|x a IH]; simpl; [reflexivity | now rewrite IH].
Qed.

Lemma strcpy_fits cap s :
  length s <= cap -> strcpy cap (Some s) = Ok s.
Proof.
  intros H. unfold strcpy. now rewrite (leb_correct _ _ H).
Qed.

Lemma strcat_fits cap dest s :
  length dest + length s <= cap -> strcat cap dest (Some s) = Ok (dest ++ s).
Proof.
  intros H. unfold strcat. now rewrite (leb_correct _ _ H).
Qed.

(** ** The builder *)

Ltac fits :=
  repeat rewrite length_append; cbn [length]; lia.

Ltac slots :=
  cbn [present orb option_map with_build build scheme userinfo host port
         path query fragment opt_free_of opt_begins_with].

Ltac lengths :=
  unfold canonical, piece; slots;
  repeat (progress (rewrite ?length_append; cbn [length])); lia.

(** The buffer sized by the first pass holds everything the second pass
    writes, and the text written is the canonical string. *)
Lemma build_buffer_canonical (u : uri_t) (s : string) :
  scheme u = Some s ->
  build_buffer u (total_size u) = Ok (canonical u s).
Proof.
  destruct u as [b sc ui h po pa q f]; cbn [scheme]; intros ->.
  unfold build_buffer, total_size, canonical, piece, add_len.
  cbn [scheme userinfo host port path query fragment].
  destruct h as [h|], ui as [ui|], po as [po|], pa as [pa|], q as [q|],
    f as [f|];
    cbn [present rbind];
    repeat (first [ rewrite strcpy_fits by fits
                  | rewrite strcat_fits by fits ];
            cbn [rbind]);
    f_equal; repeat rewrite append_assoc; repeat rewrite append_empty_r;
    reflexivity.
Qed.

Lemma build_buffer_null_scheme (u : uri_t) (n : nat) :
  scheme u = None -> build_buffer u n = Undefined.
Proof.
  intros H. unfold build_buffer. now rewrite H.
Qed.


Lemma to_int_fits (k : nat) :
  (N.of_nat k <= INT_MAX)%N -> to_int k = Ok k.
Proof.
  intros H. unfold to_int. apply N.leb_le in H. now rewrite H.
Qed.

Lemma to_int_over (k : nat) :
  (INT_MAX < N.of_nat k)%N -> to_int k = Undefined.
Proof.
  intros H. unfold to_int. apply N.leb_gt in H. now rewrite H.
Qed.

(** The [int] of the first pass holds the sum as long as no addition
    passes [INT_MAX]. *)
Lemma build_size_spec (u : uri_t) :
  build_size u =
  if (N.of_nat (total_size u) <=? INT_MAX)%N then Ok (total_size u)
  else Undefined.
Proof.
  destruct u as [b sc ui h po pa q f].
  unfold build_size, total_size, sized, add_len, to_int.
  cbn [scheme userinfo host port path query fragment].
  generalize INT_MAX. intros m.
  destruct sc, ui, h, po, pa, q, f; cbn [rbind];
    repeat match goal with
           | |- context [(?a <=? ?b)%N] =>
               destruct (N.leb_spec a b); cbn [rbind]
           end;
    first [reflexivity | exfalso; lia].
Qed.

Lemma uri_build_spec (u : uri_t) (s : string) :
  scheme u = Some s ->
  uri_build u =
  if fitsb u then Ok (tt, with_build u (Some (canonical u s)))
  else Undefined.
Proof.
  intros H. unfold uri_build, fitsb. rewrite build_size_spec.
  destruct (N.ltb_spec (N.of_nat (total_size u)) INT_MAX) as [Hlt | Hge].
  - destruct (N.leb_spec (N.of_nat (total_size u)) INT_MAX); [| lia].
    cbn [rbind]. rewrite to_int_fits by lia. cbn [rbind].
    rewrite (build_buffer_canonical u s H). now destruct u.
  - destruct (N.leb_spec (N.of_nat (total_size u)) INT_MAX);
      [| reflexivity].
    cbn [rbind]. now rewrite to_int_over by lia.
Qed.

Lemma uri_build_null_scheme (u : uri_t) :
  scheme u = None -> uri_build u = Undefined.
Proof.
  intros H. unfold uri_build.
  destruct (build_size u) as [n|]; [| reflexivity]. cbn [rbind].
  destruct (to_int (n + 1)); [| reflexivity]. cbn [rbind].
  now rewrite build_buffer_null_scheme.
Qed.

Lemma uri_build_overflow (u : uri_t) :
  fitsb u = false -> uri_build u = Undefined.
Proof.
  intros H. destruct (scheme u) as [s|] eqn:E.
  - rewrite (uri_build_spec u s E). now rewrite H.
  - now apply uri_build_null_scheme.
Qed.


Lemma uri_get_spec (u : uri_t) (s : string) :
  scheme u = Some s ->
  uri_get u =
  if fitsb u
  then Ok (Some (canonical u s), with_build u (Some (canonical u s)))
  else Undefined.
Proof.
  intros H. unfold uri_get, bind. rewrite (uri_build_spec u s H).
  now destruct (fitsb u).
Qed.

Lemma uri_get_canonical (u : uri_t) (s : string) :
  scheme u = Some s -> build_fits u ->
  uri_get u = Ok (Some (canonical u s), with_build u (Some (canonical u s))).
Proof.
  intros H Hf. rewrite (uri_get_spec u s H).
  apply N.ltb_lt in Hf. unfold fitsb. now rewrite Hf.
Qed.

Lemma uri_get_undefined (u : uri_t) :
  uri_build u = Undefined -> uri_get u = Undefined.
Proof. intros H. unfold uri_get, bind. now rewrite H. Qed.

Example build_without_host :
  uri_build (mk_uri None (Some "mailto") (Some "user") None (Some "25")
               (Some "a@b") None None) =
  Ok (tt, mk_uri (Some "mailto:a@b") (Some "mailto") (Some "user") None
            (Some "25") (Some "a@b") None None).
Proof. reflexivity. Qed.

Example build_path_verbatim :
  uri_build (mk_uri (Some "stale") (Some "http") None (Some "h") None
               (Some "p") None (Some "f")) =
  Ok (tt, mk_uri (Some "http://hp#f") (Some "http") None (Some "h") None
            (Some "p") None (Some "f")).
Proof. reflexivity. Qed.

(** The size does not depend on the cache slot. *)
Lemma fitsb_with_build (u : uri_t) (b : option string) :
  fitsb (with_build u b) = fitsb u.
Proof. reflexivity. Qed.

(** ** Texts of a given length *)

Lemma length_string_of_list (l : list ascii) :
  length (string_of_list_ascii l) = List.length l.
Proof. induction l as [|a l IH]; simpl; [reflexivity | now rewrite IH]. Qed.

Lemma length_filler (n : nat) : length (filler n) = n.
Proof.
  unfold filler. rewrite length_string_of_list. apply repeat_length.
Qed.

Lemma oversized_store_overflows : fitsb oversized_store = false.
Proof.
  unfold fitsb. apply N.ltb_ge.
  unfold total_size, oversized_store, add_len.
  cbn [scheme userinfo host port path query fragment].
  rewrite length_filler. lia.
Qed.

(** ** The accessors *)

Lemma store_spec (e : uri_element_t) (c : option string) (u : uri_t) :
  e <> URI_END ->
  exists u', store e c u = Ok (tt, u') /\ slot u' e = Ok c /\
             only_changes e u u'.
Proof.
  intros He. destruct u as [b s ui h po pa q f].
  destruct e; try congruence; cbn [store];
    (eexists; split; [reflexivity | split; [reflexivity |]]);
    intros e' Hne; destruct e'; try congruence; reflexivity.
Qed.

Lemma uri_set_spec (e : uri_element_t) (data : option string) (u : uri_t) :
  e <> URI_END ->
  exists u', uri_set e data u = Ok (tt, u') /\ slot u' e = Ok data /\
             only_changes e u u'.
Proof.
  intros He. destruct (store_spec e data u He) as (u' & Hst & Hs & Hf).
  exists u'. split; [|split; assumption].
  unfold uri_set, bind, load, copy_string.
  destruct (slot u e) eqn:Hsl.
  - destruct data; exact Hst.
  - destruct e; try discriminate Hsl; congruence.
Qed.

Lemma uri_set_out_of_bounds (data : option string) (u : uri_t) :
  uri_set URI_END data u = Undefined.
Proof. reflexivity. Qed.

Lemma only_changes_build (u : uri_t) (b : option string) :
  only_changes BUILD u (with_build u b).
Proof.
  intros e' Hne. destruct e'; try congruence; reflexivity.
Qed.

(** ** Scanning *)

Lemma substring_prefix (pre w : string) :
  substring 0 (length pre) (pre ++ w) = pre.
Proof.
  induction pre as [|a pre IH]; simpl.
  - now destruct w.
  - now rewrite IH.
Qed.

Lemma copy_substring_prefix (pre w : string) :
  copy_substring (pre ++ w) w = pre.
Proof.
  unfold copy_substring. rewrite length_append.
  replace (length pre + length w - length w) with (length pre) by lia.
  apply substring_prefix.
Qed.

Lemma strchr_none (s : string) (c : ascii) :
  strchr s c = None <-> ~ occurs c s.
Proof.
  unfold occurs. induction s as [|a s IH]; simpl.
  - tauto.
  - destruct (Ascii.eqb_spec a c) as [->|Hne].
    + split; [discriminate | intros H; exfalso; apply H; now left].
    + rewrite IH. split.
      * intros H [E|E]; [congruence | contradiction].
      * intros H E. apply H. now right.
Qed.

Lemma strchr_some (s : string) (c : ascii) (w : string) :
  strchr s c = Some w ->
  exists pre rest, w = String c rest /\ s = pre ++ w /\ ~ occurs c pre.
Proof.
  unfold occurs. revert w. induction s as [|a s IH]; simpl; intros w H.
  - discriminate.
  - destruct (Ascii.eqb_spec a c) as [->|Hne].
    + injection H as <-. exists "", s. simpl. tauto.
    + destruct (IH w H) as (pre & rest & -> & -> & Hpre).
      exists (String a pre), rest. simpl.
      repeat split. intros [E|E]; [congruence | contradiction].
Qed.

Lemma occurs_split (s : string) (c : ascii) :
  occurs c s -> exists w, strchr s c = Some w.
Proof.
  intros H. destruct (strchr s c) as [w|] eqn:E.
  - now exists w.
  - apply strchr_none in E. contradiction.
Qed.

(** ** Scanning loops and tokens *)

Lemma is_one_of_In (stops : list ascii) (a : ascii) :
  is_one_of stops a = true <-> In a stops.
Proof.
  unfold is_one_of. rewrite existsb_exists. split.
  - intros (x & Hx & E). apply Ascii.eqb_eq in E. now subst.
  - intros H. exists a. split; [exact H | apply Ascii.eqb_refl].
Qed.

Lemma is_one_of_false (stops : list ascii) (a : ascii) :
  is_one_of stops a = false <-> ~ In a stops.
Proof.
  rewrite <- is_one_of_In. destruct (is_one_of stops a); split;
    congruence.
Qed.

Lemma free_of_cons (stops : list ascii) (a : ascii) (t : string) :
  free_of stops (String a t) <-> ~ In a stops /\ free_of stops t.
Proof.
  unfold free_of, occurs. simpl. split.
  - intros H. split.
    + intros Ha. apply (H a Ha). now left.
    + intros c Hc Hin. apply (H c Hc). now right.
  - intros [Ha Ht] c Hc [E | Hin].
    + subst. contradiction.
    + exact (Ht c Hc Hin).
Qed.

Lemma free_of_empty (stops : list ascii) : free_of stops "".
Proof. intros c _ H. exact H. Qed.

Lemma free_of_incl (stops stops' : list ascii) (t : string) :
  incl stops' stops -> free_of stops t -> free_of stops' t.
Proof. intros Hi H c Hc. apply H, Hi, Hc. Qed.

Lemma free_of_app (stops stops' : list ascii) (t : string) :
  free_of stops t -> free_of stops' t -> free_of (stops ++ stops') t.
Proof.
  intros H H' c Hc. apply in_app_or in Hc. destruct Hc; auto.
Qed.

(** The loop runs over a text without stop characters. *)
Lemma scan_free_of (stops : list ascii) (t w : string) :
  free_of stops t ->
  scan (is_one_of stops) (t ++ w) = scan (is_one_of stops) w.
Proof.
  induction t as [|a t IH]; intros H; simpl; [reflexivity |].
  apply free_of_cons in H. destruct H as [Ha Ht].
  apply is_one_of_false in Ha. rewrite Ha. now apply IH.
Qed.

Lemma scan_to_end (stops : list ascii) (t : string) :
  free_of stops t -> scan (is_one_of stops) t = "".
Proof.
  intros H. rewrite <- (append_empty_r t) at 1.
  now rewrite scan_free_of.
Qed.

Lemma scan_at_stop (stops : list ascii) (a : ascii) (w : string) :
  is_one_of stops a = true ->
  scan (is_one_of stops) (String a w) = String a w.
Proof. intros H. simpl. now rewrite H. Qed.

Lemma scan_skip (stops : list ascii) (a : ascii) (w : string) :
  is_one_of stops a = false ->
  scan (is_one_of stops) (String a w) = scan (is_one_of stops) w.
Proof. intros H. simpl. now rewrite H. Qed.

(** Where a loop stops: at the terminator or on a stop character. *)
Lemma scan_stops (stop : ascii -> bool) (w : string) :
  scan stop w = "" \/
  exists a r, scan stop w = String a r /\ stop a = true.
Proof.
  induction w as [|a w IH]; simpl; [now left |].
  destruct (stop a) eqn:E; [right; now exists a, w | exact IH].
Qed.

(** The cursor a loop leaves is a suffix of the one it started from, and
    the text it ran over has no stop character. *)
Lemma scan_suffix (stop : ascii -> bool) (w : string) :
  exists t, w = t ++ scan stop w /\
            forall c, occurs c t -> stop c = false.
Proof.
  induction w as [|a w (t & E & Ht)]; simpl.
  - exists "". split; [reflexivity | intros c []].
  - destruct (stop a) eqn:Ea.
    + exists "". split; [reflexivity | intros c []].
    + exists (String a t). simpl. split; [now rewrite <- E |].
      intros c [<- | Hc]; [exact Ea | now apply Ht].
Qed.

Lemma copy_substring_all (t : string) : copy_substring t "" = t.
Proof.
  rewrite <- (append_empty_r t) at 1. apply copy_substring_prefix.
Qed.

Lemma copy_substring_cons (a : ascii) (pre w : string) :
  copy_substring (String a (pre ++ w)) w = String a pre.
Proof. apply (copy_substring_prefix (String a pre) w). Qed.

Lemma copy_substring_here (w : string) : copy_substring w w = "".
Proof. apply (copy_substring_prefix "" w). Qed.

(** The token between a cursor and the place a loop stops, followed by the
    rest, is the text at the cursor. *)
Lemma token_rest (stop : ascii -> bool) (w : string) :
  copy_substring w (scan stop w) ++ scan stop w = w.
Proof.
  destruct (scan_suffix stop w) as (t & E & _).
  rewrite E at 1. rewrite copy_substring_prefix. now rewrite <- E.
Qed.

Lemma token_free_of (stops : list ascii) (w : string) :
  free_of stops (copy_substring w (scan (is_one_of stops) w)).
Proof.
  destruct (scan_suffix (is_one_of stops) w) as (t & E & Ht).
  rewrite E at 1. rewrite copy_substring_prefix.
  intros c Hc Hin. apply is_one_of_In in Hc.
  rewrite (Ht c Hin) in Hc. discriminate.
Qed.

Lemma strchr_first (pre rest : string) (c : ascii) :
  ~ occurs c pre ->
  strchr (pre ++ String c rest) c = Some (String c rest).
Proof.
  unfold occurs. induction pre as [|a pre IH]; simpl; intros H.
  - now rewrite Ascii.eqb_refl.
  - destruct (Ascii.eqb_spec a c) as [->|Hne].
    + exfalso. apply H. now left.
    + apply IH. intros Hin. apply H. now right.
Qed.

Lemma free_of_nil (t : string) : free_of [] t.
Proof. intros c []. Qed.


(** ** The parser on the canonical string of a store *)

Ltac norm := repeat (rewrite ?append_assoc, ?append_empty_r; cbn [append]).

Ltac run :=
  cbv beta iota zeta delta
    [bind ret uri_set load store slot copy_string at_end at_char next andb
     parse_body parse_authority parse_path calloc_uri Ascii.eqb Bool.eqb].

Ltac scan_step :=
  first [ rewrite scan_free_of by assumption
        | rewrite scan_at_stop by reflexivity
        | rewrite scan_skip by reflexivity
        | rewrite scan_to_end by (assumption || apply free_of_nil)
        | rewrite copy_substring_prefix
        | rewrite copy_substring_cons
        | rewrite copy_substring_all ].

Ltac parse_run := run; repeat (progress (repeat scan_step); run).

Lemma uri_parse_canonical (u : uri_t) (sc h : string) :
  parseable u sc h ->
  uri_parse (canonical u sc) =
  if present (query u) || present (fragment u)
  then if fitsb (reparsed_slots u sc) then Ok (Some (reparsed u sc))
       else Undefined
  else Ok (Some (reparsed u sc)).
Proof.
  destruct u as [b s ui ho po pa q f].
  unfold parseable, reparsed, reparsed_slots, canonical, piece, opt_free_of.
  cbn [scheme userinfo host port path query fragment].
  intros (Es & Hsc & Eh & Hh & Hh' & Hui & Hpo & Hpa & Hq).
  subst s ho.
  assert (Hc : ~ occurs ":" sc) by (apply Hsc; now left).
  assert (Hh3 : ui = None -> free_of ["@"; ":"; "/"]%char h).
  { intros E. apply (free_of_app ["@"%char] [":"; "/"]%char); auto. }
  destruct ui as [ui|]; [clear Hh3 | specialize (Hh3 eq_refl)];
    destruct po as [po|];
    (destruct pa as [pa|];
     [destruct Hpa as (p' & -> & Hp'); destruct q as [q|], f as [f|]
     | destruct Hpa as [-> ->]]);
    cbn [present orb option_map with_build scheme userinfo host port path
           query fragment];
    norm; unfold uri_parse; rewrite (strchr_first _ _ _ Hc); parse_run;
    try (rewrite uri_build_spec with (s := sc) by reflexivity;
         unfold canonical, piece;
         cbn [with_build scheme userinfo host port path query fragment];
         norm; destruct (fitsb _));
    reflexivity.
Qed.

(** ** The parser on a scheme without authority *)

Lemma at_char_free_of (c : ascii) (r : string) :
  free_of [c] r -> at_char r c = false.
Proof.
  destruct r as [|a r]; [reflexivity |]. intros H. cbn [at_char].
  apply free_of_cons in H. destruct H as [Ha _].
  destruct (Ascii.eqb_spec a c) as [->|]; [| reflexivity].
  exfalso. apply Ha. now left.
Qed.

Ltac run_body :=
  cbv beta iota zeta delta
    [bind ret uri_set load store slot copy_string parse_body parse_path
     calloc_uri].

(** Without a slash after the colon the rest of the input is the path, and
    the parser returns at line 270. *)
Lemma uri_parse_opaque (sc r : string) :
  free_of [":"%char] sc -> free_of ["/"%char] r ->
  uri_parse (sc ++ ":" ++ r) =
  Ok (Some (mk_uri None (Some sc) None None None (Some r) None None)).
Proof.
  intros Hsc Hr. cbn [append].
  assert (Hc : ~ occurs ":" sc) by (apply Hsc; now left).
  unfold uri_parse. rewrite (strchr_first _ _ _ Hc).
  run_body. cbn [next]. rewrite (at_char_free_of _ _ Hr). cbn [andb].
  rewrite copy_substring_prefix, (scan_to_end _ _ Hr).
  cbv beta iota zeta delta [at_end bind ret].
  now rewrite copy_substring_all.
Qed.

(** With a first slash that does not open an authority, the path ends at
    that slash, the rest of the input is dropped and the cache is built,
    if its size fits an [int]. *)
Lemma uri_parse_opaque_slash (sc p t : string) :
  free_of [":"%char] sc -> free_of ["/"%char] p ->
  (p = "" -> ~ begins_with "/" t) ->
  uri_parse (sc ++ ":" ++ p ++ "/" ++ t) =
  if fitsb (mk_uri None (Some sc) None None None (Some p) None None)
  then Ok (Some (mk_uri (Some (sc ++ ":" ++ p)) (Some sc) None None None
                   (Some p) None None))
  else Undefined.
Proof.
  intros Hsc Hp Ht. cbn [append].
  assert (Hc : ~ occurs ":" sc) by (apply Hsc; now left).
  unfold uri_parse. rewrite (strchr_first _ _ _ Hc).
  run_body. cbn [next].
  assert (Hno : at_char (p ++ String "/" t) "/"
                && at_char (next (p ++ String "/" t)) "/" = false).
  { destruct p as [|a p]; cbn [append at_char next].
    - destruct t as [|b t]; [reflexivity |]. cbn [at_char andb].
      destruct (Ascii.eqb_spec b "/") as [->|]; [| reflexivity].
      exfalso. apply (Ht eq_refl). now exists t.
    - apply free_of_cons in Hp. destruct Hp as [Ha _].
      destruct (Ascii.eqb_spec a "/") as [->|]; [| reflexivity].
      exfalso. apply Ha. now left. }
  rewrite Hno. rewrite copy_substring_prefix.
  rewrite (scan_free_of _ _ _ Hp), scan_at_stop by reflexivity.
  rewrite copy_substring_prefix.
  cbv beta iota zeta delta [at_end at_char Ascii.eqb Bool.eqb bind ret].
  rewrite uri_build_spec with (s := sc) by reflexivity.
  unfold canonical, piece, with_build.
  cbn [scheme userinfo host port path query fragment]. norm.
  now destruct (fitsb _).
Qed.

(** ** The shapes of an input *)

(** A text splits at its first stop character. *)
Lemma split_at_stop (stops : list ascii) (w : string) :
  exists t r, w = t ++ r /\ free_of stops t /\
              (r = "" \/ exists a r', r = String a r' /\ In a stops).
Proof.
  exists (copy_substring w (scan (is_one_of stops) w)),
         (scan (is_one_of stops) w).
  split; [symmetry; apply token_rest |].
  split; [apply token_free_of |].
  destruct (scan_stops (is_one_of stops) w) as [E | (a & r & E & Ha)].
  - now left.
  - right. exists a, r. split; [exact E | now apply is_one_of_In].
Qed.

(** The input from the path on: a path that begins with a slash, a query
    after [?], a fragment after [#]. *)
Lemma path_shape (w : string) :
  w = "" \/ begins_with "/" w ->
  exists pa q f,
    w = piece pa "" "" ++ piece q "?" "" ++ piece f "#" "" /\
    match pa with
    | Some p => exists p', p = String "/" p' /\ free_of ["?"; "#"]%char p'
    | None => q = None /\ f = None
    end /\
    opt_free_of ["#"%char] q.
Proof.
  intros [-> | (w' & ->)].
  - exists None, None, None. cbn. tauto.
  - destruct (split_at_stop ["?"; "#"]%char w')
      as (p' & r & -> & Hp' & [-> | (a & r' & -> & Ha)]).
    + exists (Some (String "/" p')), None, None. cbn. norm.
      split; [reflexivity | split; [now exists p' | exact I]].
    + destruct Ha as [<- | [<- | []]].
      * destruct (split_at_stop ["#"%char] r')
          as (q & r & -> & Hq & [-> | (a & f & -> & Ha)]).
        -- exists (Some (String "/" p')), (Some q), None. cbn. norm.
           split; [reflexivity | split; [now exists p' | exact Hq]].
        -- destruct Ha as [<- | []].
           exists (Some (String "/" p')), (Some q), (Some f). cbn. norm.
           split; [reflexivity | split; [now exists p' | exact Hq]].
      * exists (Some (String "/" p')), None, (Some r'). cbn. norm.
        split; [reflexivity | split; [now exists p' | exact I]].
Qed.

(** The input after the host: a port after [:], then the path. *)
Lemma port_shape (w : string) :
  w = "" \/ begins_with ":" w \/ begins_with "/" w ->
  exists po pa q f,
    w = piece po ":" "" ++ piece pa "" "" ++ piece q "?" ""
        ++ piece f "#" "" /\
    opt_free_of ["/"%char] po /\
    match pa with
    | Some p => exists p', p = String "/" p' /\ free_of ["?"; "#"]%char p'
    | None => q = None /\ f = None
    end /\
    opt_free_of ["#"%char] q.
Proof.
  intros [-> | [(w' & ->) | H]].
  - exists None, None, None, None. cbn. tauto.
  - destruct (split_at_stop ["/"%char] w')
      as (po & r & -> & Hpo & Hr).
    assert (Hr' : r = "" \/ begins_with "/" r).
    { destruct Hr as [-> | (a & r' & -> & [<- | []])];
        [now left | right; now exists r']. }
    destruct (path_shape r Hr') as (pa & q & f & -> & Hpa & Hq).
    exists (Some po), pa, q, f. cbn [piece]. norm.
    split; [reflexivity | split; [exact Hpo | split; assumption]].
  - destruct (path_shape w (or_intror H)) as (pa & q & f & -> & Hpa & Hq).
    exists None, pa, q, f. cbn [piece append].
    split; [reflexivity | split; [exact I | split; assumption]].
Qed.

(** Every text after [scheme://] is the authority and tail of a
    [parseable] store. *)
Lemma authority_shape (sc a : string) :
  free_of [":"%char] sc ->
  exists u h, parseable u sc h /\ build u = None /\
              canonical u sc = sc ++ "://" ++ a.
Proof.
  intros Hsc.
  destruct (split_at_stop ["@"; ":"; "/"]%char a)
    as (t1 & r1 & -> & Ht1 & Hr1).
  assert (Ht1' : free_of [":"; "/"]%char t1).
  { apply (free_of_incl ["@"; ":"; "/"]%char); [| exact Ht1].
    intros x Hx. now right. }
  assert (Ht1'' : free_of ["@"%char] t1).
  { apply (free_of_incl ["@"; ":"; "/"]%char); [| exact Ht1].
    intros x [<- | []]. now left. }
  assert (Hplain : r1 = "" \/ begins_with ":" r1 \/ begins_with "/" r1 ->
            exists u h, parseable u sc h /\ build u = None /\
                        canonical u sc = sc ++ "://" ++ t1 ++ r1).
  { intros H. destruct (port_shape r1 H) as (po & pa & q & f & -> & Hpo
                                              & Hpa & Hq).
    exists (mk_uri None (Some sc) None (Some t1) po pa q f), t1.
    split; [| split; [reflexivity |]].
    - unfold parseable.
      cbn [scheme userinfo host port path query fragment opt_free_of].
      repeat (split; [solve [reflexivity | assumption | auto] |]).
      exact Hq.
    - unfold canonical.
      cbn [scheme userinfo host port path query fragment piece]. norm.
      reflexivity. }
  destruct Hr1 as [-> | (c & r' & -> & Hc)].
  - apply Hplain. now left.
  - destruct Hc as [<- | [<- | [<- | []]]].
    + destruct (split_at_stop [":"; "/"]%char r')
        as (h & r2 & -> & Hh & Hr2).
      assert (H : r2 = "" \/ begins_with ":" r2 \/ begins_with "/" r2).
      { destruct Hr2 as [-> | (c & r & -> & [<- | [<- | []]])];
          [now left | right; left; now exists r
          | right; right; now exists r]. }
      destruct (port_shape r2 H) as (po & pa & q & f & -> & Hpo
                                     & Hpa & Hq).
      exists (mk_uri None (Some sc) (Some t1) (Some h) po pa q f), h.
      split; [| split; [reflexivity |]].
      * unfold parseable.
        cbn [scheme userinfo host port path query fragment opt_free_of].
        repeat (split; [solve [reflexivity | assumption | discriminate] |]).
        exact Hq.
      * unfold canonical.
        cbn [scheme userinfo host port path query fragment piece]. norm.
        reflexivity.
    + apply Hplain. right; left. now exists r'.
    + apply Hplain. right; right. now exists r'.
Qed.

(** The four shapes of an input, and what [uri_parse] returns for each. *)
Lemma uri_parse_shapes (s : string) :
  (~ occurs ":" s /\ uri_parse s = Ok None) \/
  (exists u sc h,
     parseable u sc h /\ s = canonical u sc /\
     uri_parse s =
       if present (query u) || present (fragment u)
       then if fitsb (reparsed_slots u sc) then Ok (Some (reparsed u sc))
            else Undefined
       else Ok (Some (reparsed u sc))) \/
  (exists sc r,
     free_of [":"%char] sc /\ free_of ["/"%char] r /\ s = sc ++ ":" ++ r /\
     uri_parse s =
       Ok (Some (mk_uri None (Some sc) None None None (Some r) None None)))
  \/
  (exists sc p t,
     free_of [":"%char] sc /\ free_of ["/"%char] p /\
     s = sc ++ ":" ++ p ++ "/" ++ t /\
     uri_parse s =
       if fitsb (mk_uri None (Some sc) None None None (Some p) None None)
       then Ok (Some (mk_uri (Some (sc ++ ":" ++ p)) (Some sc) None None
                        None (Some p) None None))
       else Undefined).
Proof.
  destruct (strchr s ":") as [w|] eqn:E.
  - right. apply strchr_some in E.
    destruct E as (sc & rest & -> & -> & Hc).
    assert (Hsc : free_of [":"%char] sc) by (intros c [<- | []]; exact Hc).
    destruct (split_at_stop ["/"%char] rest)
      as (p & r2 & -> & Hp & [-> | (c & t & -> & [<- | []])]).
    + right; left. exists sc, p. rewrite append_empty_r.
      repeat split; try assumption. now apply uri_parse_opaque.
    + assert (D : (p = "" /\ begins_with "/" t) \/
                  (p = "" -> ~ begins_with "/" t)).
      { destruct p as [|a p]; [| right; discriminate].
        destruct t as [|b t].
        - right. intros _ (r & Hr). discriminate.
        - destruct (Ascii.eqb_spec b "/") as [->|Hne].
          + left. split; [reflexivity | now exists t].
          + right. intros _ (r & Hr). congruence. }
      destruct D as [(-> & a & ->) | D].
      * left. destruct (authority_shape sc a Hsc) as (u & h & Hu & _ & Eu).
        exists u, sc, h. cbn [append] in Eu |- *.
        rewrite <- Eu.
        split; [exact Hu | split; [reflexivity |]].
        now apply uri_parse_canonical with (h := h).
      * right; right. exists sc, p, t.
        repeat split; try assumption. now apply uri_parse_opaque_slash.
  - left. split; [now apply strchr_none |]. unfold uri_parse. now rewrite E.
Qed.

(** ** What every parsed store satisfies *)

(** The store of a successful parse, in one of its three shapes. *)
Lemma parsed_store_shapes (s : string) (u : uri_t) :
  uri_parse s = Ok (Some u) ->
  (exists u0 sc h, parseable u0 sc h /\ s = canonical u0 sc /\
                   u = reparsed u0 sc) \/
  (exists sc r, free_of [":"%char] sc /\ free_of ["/"%char] r /\
                s = sc ++ ":" ++ r /\
                u = mk_uri None (Some sc) None None None (Some r) None None)
  \/
  (exists sc p t, free_of [":"%char] sc /\ free_of ["/"%char] p /\
                  s = sc ++ ":" ++ p ++ "/" ++ t /\
                  u = mk_uri (Some (sc ++ ":" ++ p)) (Some sc) None None None
                        (Some p) None None).
Proof.
  intros H.
  destruct (uri_parse_shapes s)
    as [[_ E] | [(u0 & sc & h & Hp & Es & E)
                | [(sc & r & Hsc & Hr & Es & E)
                  | (sc & p & t & Hsc & Hp & Es & E)]]];
    rewrite E in H; try discriminate H.
  - left. exists u0, sc, h. split; [exact Hp | split; [exact Es |]].
    destruct (present (query u0) || present (fragment u0));
      [destruct (fitsb _); [| discriminate H] |];
      now injection H as <-.
  - right; left. injection H as <-. now exists sc, r.
  - right; right. destruct (fitsb _); [| discriminate H].
    injection H as <-. now exists sc, p, t.
Qed.

Ltac parsed_cases H :=
  let u0 := fresh "u0" in
  let sc := fresh "sc" in
  let h := fresh "h" in
  let Hp := fresh "Hp" in
  apply parsed_store_shapes in H;
  destruct H
    as [(u0 & sc & h & Hp & -> & ->)
       | [(sc & ? & ? & ? & -> & ->) | (sc & ? & ? & ? & ? & -> & ->)]];
  [ destruct u0 as [b0 s0 ui0 ho0 po0 pa0 q0 f0];
    unfold parseable, opt_free_of in Hp;
    cbn [scheme userinfo host port path query fragment] in Hp;
    destruct Hp as (Es & Hsc & Eh & Hh & Hh' & Hui & Hpo & Hpa & Hq);
    subst s0 ho0; unfold reparsed, reparsed_slots;
    cbn [scheme userinfo host port path query fragment]
  | | ].

Lemma free_of_cons_other (stops : list ascii) (a : ascii) (t : string) :
  is_one_of stops a = false -> free_of stops t -> free_of stops (String a t).
Proof.
  intros Ha Ht. apply free_of_cons. split; [| exact Ht].
  now apply is_one_of_false.
Qed.

(** ** Sizes of parsed stores *)

Lemma reparsed_size (u : uri_t) (sc h : string) :
  host u = Some h ->
  total_size (reparsed_slots u sc) =
  length (canonical u sc)
  + (if present (query u) then 1 else 0)
  + (if present (fragment u) then 1 else 0).
Proof.
  destruct u as [b s ui ho po pa q f]; cbn [host]; intros ->.
  unfold total_size, reparsed_slots, add_len.
  destruct ui, po, pa, q, f; lengths.
Qed.

Lemma fitsb_true (u : uri_t) : build_fits u -> fitsb u = true.
Proof. intros H. now apply N.ltb_lt. Qed.

Lemma free_ofb_sound (stops : list ascii) (t : string) :
  free_ofb stops t = true -> free_of stops t.
Proof.
  unfold free_ofb, free_of, occurs. rewrite forallb_forall.
  intros H c Hc Hin. specialize (H c Hin).
  apply is_one_of_In in Hc. rewrite Hc in H. discriminate H.
Qed.

Lemma example_store_parseable : parseable example_store "http" "host".
Proof.
  unfold parseable. cbn [example_store scheme userinfo host port path query
                           fragment opt_free_of].
  repeat (split; [first [ reflexivity | discriminate
                        | now apply free_ofb_sound ] |]).
  split; [| now apply free_ofb_sound].
  exists "path". split; [reflexivity | now apply free_ofb_sound].
Defined.


(** ** When the parser returns a store *)




(** ** Properties of the parser, the builder and the accessors *)

(** C1 (round trip on well-formed input), evaluated on
    ["http://host/path?q#f"]: scheme, host, path, query and fragment are all
    present after the parse and the path is not empty, yet the canonical
    string is ["http://host/path??q##f"]: the parser keeps the leading [?]
    and [#] in the query and fragment slots (line 272 and line 283 set
    [current] to the delimiter itself) and the builder writes the
    delimiters again. *)
Theorem roundtrip_repeats_delimiters :
  exists u u',
    uri_parse "http://host/path?q#f" = Ok (Some u) /\
    scheme u = Some "http" /\ host u = Some "host" /\
    path u = Some "/path" /\ query u = Some "?q" /\
    fragment u = Some "#f" /\
    uri_get u = Ok (Some "http://host/path??q##f", u') /\
    "http://host/path??q##f" <> "http://host/path?q#f".
Proof.
  do 2 eexists. repeat split; try reflexivity. discriminate.
Qed.

(** C2 (the store returned by a successful parse holds its canonical
    string), evaluated on inputs that end right after the host, the port
    and the path: [uri_parse] returns at lines 236, 252 and 270 before it
    reaches [uri_build], and the cache slot of the returned store is null.
    An input that goes on after the path reaches line 296 and has its cache
    built. *)
Theorem parse_returns_before_build :
  (exists u, uri_parse "http://host" = Ok (Some u) /\ build u = None) /\
  (exists u, uri_parse "http://host:80" = Ok (Some u) /\ build u = None) /\
  (exists u, uri_parse "http://host/path" = Ok (Some u) /\ build u = None) /\
  (exists u, uri_parse "http://host/path?" = Ok (Some u) /\
             build u = Some (canonical u "http")).
Proof.
  repeat split; eexists; split; reflexivity.
Qed.







(** C5 (path-only remainder when no authority follows the scheme),
    evaluated on ["urn:a?b#c"] and ["mailto:a/b?c"]: the loop of the
    non-authority branch (line 261) stops at [/], not at [?] or [#] as the
    loop of the authority branch does (line 256).  The path slot of the
    first input swallows the query and the fragment; the second is cut at
    its first [/], and since the cursor then stands on [/] neither a query
    nor a fragment is recognized. *)
Theorem non_authority_path_stops_at_slash :
  uri_parse "urn:a?b#c" =
    Ok (Some (mk_uri None (Some "urn") None None None (Some "a?b#c")
                None None)) /\
  uri_parse "mailto:a/b?c" =
    Ok (Some (mk_uri (Some "mailto:a") (Some "mailto") None None None
                (Some "a") None None)) /\
  uri_parse "http://h/a?b#c" =
    Ok (Some (mk_uri (Some "http://h/a??b##c") (Some "http") None (Some "h")
                None (Some "/a") (Some "?b") (Some "#c"))).
Proof.
  repeat split.
Qed.

(** C6 (authority example), evaluated on ["http://user@host:80/path?q#f"]:
    userinfo, host, port and path are as the claim lists them, but the
    query slot holds ["?q"] and the fragment slot ["#f"], with their
    delimiters; the skip of the delimiter that the userinfo and port
    branches perform ([current = ++working], lines 225 and 241) is
    [current = working] for the query and the fragment (lines 272 and
    283). *)
Theorem parse_keeps_query_and_fragment_delimiters :
  exists u,
    uri_parse "http://user@host:80/path?q#f" = Ok (Some u) /\
    userinfo u = Some "user" /\ host u = Some "host" /\
    port u = Some "80" /\ path u = Some "/path" /\
    query u = Some "?q" /\ fragment u = Some "#f" /\
    query u <> Some "q" /\ fragment u <> Some "f".
Proof.
  eexists. repeat split; try reflexivity; discriminate.
Qed.

(** C7 (stale cache), evaluated on the scenario of the claim: the parse of
    ["http://a/b"] returns at line 270 without a build, so after
    [uri_set] of the path to ["/c"] the cache slot is still null and
    [uri_print] writes nothing, where the claim expects the canonical
    string with ["/b"]; [uri_get] then rebuilds and gives
    ["http://a/c"]. *)
Theorem print_after_parse_writes_nothing :
  exists u u1 u2,
    uri_parse "http://a/b" = Ok (Some u) /\
    uri_set PATH (Some "/c") u = Ok (tt, u1) /\
    uri_print u1 = "" /\
    uri_get u1 = Ok (Some "http://a/c", u2) /\
    uri_print u2 = "http://a/c".
Proof.
  do 3 eexists. repeat split.
Qed.

(** C8 as stated fails in four places.  [BUILD] is an enumerator of
    [uri_element_t] like the seven semantic kinds, and [uri_set] on it
    rewrites the cache slot; the enumerator [URI_END] indexes no slot, and
    [uri_set] on it writes past the end of [data].  [uri_get] does not
    always rebuild: on a store without scheme, and on a store whose size
    does not fit an [int], it has no defined result. *)
Lemma accessors_claim_fails :
  ~ (forall (u : uri_t) (e : uri_element_t) (data : option string) u',
       uri_set e data u = Ok (tt, u') -> build u' = build u) /\
  uri_set URI_END None calloc_uri = Undefined /\
  uri_get calloc_uri = Undefined /\
  (scheme oversized_store <> None /\ uri_get oversized_store = Undefined).
Proof.
  split; [| split; [reflexivity | split; [reflexivity | split;
                                           [discriminate |]]]].
  - intros H.
    specialize (H calloc_uri BUILD (Some "x") _ eq_refl). discriminate H.
  - apply uri_get_undefined, uri_build_overflow,
      oversized_store_overflows.
Qed.

(** C8, amended (slot framing and pull-based rebuild): for every store,
    every element kind that indexes a slot and every text or null pointer,
    [uri_set] puts the value in the named slot, [uri_remove] puts the null
    pointer there, and both leave every other slot as it was; the cache
    slot is therefore untouched unless the named kind is [BUILD] itself.
    [uri_get], on a store with a scheme and a size that fits an [int],
    rebuilds: it returns the canonical string of the semantic slots, stores
    it in the cache slot and leaves the seven semantic slots as they
    were. *)
Theorem accessors_change_only_named_slot :
  (forall u e data, e <> URI_END ->
     exists u', uri_set e data u = Ok (tt, u') /\
                slot u' e = Ok data /\ only_changes e u u' /\
                (e <> BUILD -> build u' = build u)) /\
  (forall u e, e <> URI_END ->
     exists r u', uri_remove e u = Ok (r, u') /\
                slot u' e = Ok None /\ only_changes e u u' /\
                (e <> BUILD -> build u' = build u)) /\
  (forall u s, scheme u = Some s -> build_fits u ->
     exists u', uri_get u = Ok (Some (canonical u s), u') /\
                build u' = Some (canonical u s) /\
                only_changes BUILD u u').
Proof.
  assert (Hcache : forall e u u', only_changes e u u' -> e <> BUILD ->
                                  build u' = build u).
  { intros e u u' Hf Hne.
    assert (H : slot u' BUILD = slot u BUILD) by (apply Hf; congruence).
    cbn [slot] in H. congruence. }
  split; [| split].
  - intros u e data He.
    destruct (uri_set_spec e data u He) as (u' & E & Hs & Hf).
    exists u'. repeat split; try assumption. now apply Hcache.
  - intros u e He.
    destruct (uri_set_spec e None u He) as (u' & E & Hs & Hf).
    assert (Hl : exists former, slot u e = Ok former)
      by (destruct e; try congruence; eexists; reflexivity).
    destruct Hl as (former & Hl).
    exists (option_map (fun _ => Freed) former), u'.
    repeat split; try assumption.
    + unfold uri_remove, bind, load. rewrite Hl.
      fold (bind (uri_set e None)
              (fun _ => ret (option_map (fun _ => Freed) former)) u).
      unfold bind. now rewrite E.
    + now apply Hcache.
  - intros u s H Hf. exists (with_build u (Some (canonical u s))).
    split; [now apply uri_get_canonical | split; [reflexivity |]].
    apply only_changes_build.
Qed.

Lemma accessors_change_only_named_slot_witness :
  (PATH <> URI_END /\
   exists u', uri_set PATH (Some "/c") example_store = Ok (tt, u') /\
              slot u' PATH = Ok (Some "/c") /\
              only_changes PATH example_store u' /\
              (PATH <> BUILD -> build u' = build example_store)) /\
  (QUERY <> URI_END /\
   exists r u', uri_remove QUERY example_store = Ok (r, u') /\
              slot u' QUERY = Ok None /\
              only_changes QUERY example_store u' /\
              (QUERY <> BUILD -> build u' = build example_store)) /\
  (scheme example_store = Some "http" /\ build_fits example_store /\
   exists u', uri_get example_store =
                Ok (Some "http://user@host:80/path?q#f", u') /\
              build u' = Some "http://user@host:80/path?q#f" /\
              only_changes BUILD example_store u').
Proof.
  destruct accessors_change_only_named_slot as (Hset & Hrem & Hget).
  split; [| split].
  - split; [discriminate |].
    apply (Hset example_store PATH (Some "/c")). discriminate.
  - split; [discriminate |].
    apply (Hrem example_store QUERY). discriminate.
  - split; [reflexivity |]. split; [reflexivity |].
    apply (Hget example_store "http"); reflexivity.
Defined.

(** C9 (missing-path gap): the parse of ["http://host?q"] followed by
    [uri_get] gives ["http://host?q"], with no [/] between the authority
    and the [?], and not ["http://host/?q"].  The scan of the authority
    does not stop at [?], so the parser takes ["host?q"] for the host; the
    builder, given a host and a query and no path, writes no [/] between
    them either. *)
Theorem missing_path_gap :
  (exists u u',
     uri_parse "http://host?q" = Ok (Some u) /\
     host u = Some "host?q" /\ path u = None /\
     uri_get u = Ok (Some "http://host?q", u') /\
     "http://host?q" <> "http://host/?q") /\
  (exists u',
     uri_get (mk_uri None (Some "http") None (Some "host") None None
                (Some "q") None) = Ok (Some "http://host?q", u')).
Proof.
  split; [do 2 eexists | eexists]; repeat split. discriminate.
Qed.




(** * Further properties *)

(** ** Properties of parsed stores *)

(** X5: the cache of a parsed store is never stale: it is either null, and
    then the store has neither query nor fragment, or the canonical string
    of the slots beside it. *)
Theorem parsed_cache_null_or_canonical (s : string) (u : uri_t) :
  uri_parse s = Ok (Some u) ->
  match build u with
  | Some b => exists sc, scheme u = Some sc /\ b = canonical u sc
  | None => query u = None /\ fragment u = None
  end.
Proof.
  intros H. parsed_cases H.
  - destruct q0, f0; slots;
      try (exists sc; split; reflexivity); split; reflexivity.
  - slots. split; reflexivity.
  - slots. exists sc. split; [reflexivity |].
    unfold canonical, piece. slots. norm. reflexivity.
Qed.

Lemma parsed_cache_null_or_canonical_witness :
  uri_parse sample_input = Ok (Some sample_parsed) /\
  exists sc, scheme sample_parsed = Some sc /\
             "http://user@host:80/path??q##f" = canonical sample_parsed sc.
Proof.
  split; [reflexivity |].
  exact (parsed_cache_null_or_canonical sample_input sample_parsed eq_refl).
Defined.

(** X6: which slots a parsed store fills: always the scheme; userinfo and port
    only with a host; a path whenever there is no host; query and fragment
    only with a host, a path and a built cache; a built cache only with a
    path. *)
Theorem parsed_slots_present (s : string) (u : uri_t) :
  uri_parse s = Ok (Some u) ->
  present (scheme u) = true /\
  (present (userinfo u) = true -> present (host u) = true) /\
  (present (port u) = true -> present (host u) = true) /\
  (present (host u) = false -> present (path u) = true) /\
  (present (query u) || present (fragment u) = true ->
   present (host u) && present (path u) && present (build u) = true) /\
  (present (build u) = true -> present (path u) = true).
Proof.
  intros H. parsed_cases H.
  - destruct ui0, po0;
      (destruct pa0 as [pa|]; [destruct q0, f0 | destruct Hpa as [-> ->]]);
      slots; repeat split; auto.
  - slots. repeat split; auto; discriminate.
  - slots. repeat split; auto; discriminate.
Qed.

Lemma parsed_slots_present_witness :
  uri_parse sample_input = Ok (Some sample_parsed) /\
  present (scheme sample_parsed) = true /\
  (present (userinfo sample_parsed) = true ->
   present (host sample_parsed) = true) /\
  (present (port sample_parsed) = true ->
   present (host sample_parsed) = true) /\
  (present (host sample_parsed) = false ->
   present (path sample_parsed) = true) /\
  (present (query sample_parsed) || present (fragment sample_parsed) = true ->
   present (host sample_parsed) && present (path sample_parsed)
   && present (build sample_parsed) = true) /\
  (present (build sample_parsed) = true ->
   present (path sample_parsed) = true).
Proof.
  split; [reflexivity |].
  exact (parsed_slots_present sample_input sample_parsed eq_refl).
Defined.

(** X7: no slot of a parsed store holds a character at which its scan stops:
    no colon in the scheme; no [@], colon or slash in the userinfo; no
    colon or slash in the host; no slash in the port; no [#] in the query;
    no [?] or [#] in a path that follows an authority, no slash in a path
    that does not. *)
Theorem parsed_slots_exclude_stops (s : string) (u : uri_t) :
  uri_parse s = Ok (Some u) ->
  opt_free_of [":"%char] (scheme u) /\
  opt_free_of ["@"; ":"; "/"]%char (userinfo u) /\
  opt_free_of [":"; "/"]%char (host u) /\
  opt_free_of ["/"%char] (port u) /\
  opt_free_of ["#"%char] (query u) /\
  (if present (host u) then opt_free_of ["?"; "#"]%char (path u)
   else opt_free_of ["/"%char] (path u)).
Proof.
  intros H. parsed_cases H.
  - assert (Hq' : opt_free_of ["#"%char] (option_map (String "?") q0)).
    { destruct q0; [| exact I]. now apply free_of_cons_other. }
    assert (Hpa' : opt_free_of ["?"; "#"]%char pa0).
    { destruct pa0; [| exact I]. destruct Hpa as (p' & -> & Hp').
      now apply free_of_cons_other. }
    destruct q0, f0; slots; repeat split; assumption.
  - slots. repeat split; assumption.
  - slots. repeat split; assumption.
Qed.

Lemma parsed_slots_exclude_stops_witness :
  uri_parse sample_input = Ok (Some sample_parsed) /\
  opt_free_of [":"%char] (scheme sample_parsed) /\
  opt_free_of ["@"; ":"; "/"]%char (userinfo sample_parsed) /\
  opt_free_of [":"; "/"]%char (host sample_parsed) /\
  opt_free_of ["/"%char] (port sample_parsed) /\
  opt_free_of ["#"%char] (query sample_parsed) /\
  (if present (host sample_parsed)
   then opt_free_of ["?"; "#"]%char (path sample_parsed)
   else opt_free_of ["/"%char] (path sample_parsed)).
Proof.
  split; [reflexivity |].
  exact (parsed_slots_exclude_stops sample_input sample_parsed eq_refl).
Defined.

(** X8: the delimiters a parsed store keeps: the query slot begins with [?],
    the fragment slot with [#], and a path that follows an authority with
    a slash. *)
Theorem parsed_slots_keep_delimiters (s : string) (u : uri_t) :
  uri_parse s = Ok (Some u) ->
  opt_begins_with "?" (query u) /\
  opt_begins_with "#" (fragment u) /\
  (present (host u) = true -> opt_begins_with "/" (path u)).
Proof.
  intros H. parsed_cases H.
  - assert (Hpa' : opt_begins_with "/" pa0).
    { destruct pa0; [| exact I]. destruct Hpa as (p' & -> & _).
      now exists p'. }
    destruct q0 as [q|], f0 as [f|]; slots; repeat split;
      auto; eexists; reflexivity.
  - slots. repeat split; auto; discriminate.
  - slots. repeat split; auto; discriminate.
Qed.

Lemma parsed_slots_keep_delimiters_witness :
  uri_parse sample_input = Ok (Some sample_parsed) /\
  opt_begins_with "?" (query sample_parsed) /\
  opt_begins_with "#" (fragment sample_parsed) /\
  (present (host sample_parsed) = true ->
   opt_begins_with "/" (path sample_parsed)).
Proof.
  split; [reflexivity |].
  exact (parsed_slots_keep_delimiters sample_input sample_parsed eq_refl).
Defined.

(** X9: when the input has an authority, or when the parser returns before the
    build, the parser loses no character: the slots of the store, joined
    with the delimiters it stepped over, are the input. *)
Theorem parse_loses_nothing (s : string) (u : uri_t) :
  uri_parse s = Ok (Some u) ->
  present (host u) = true \/ build u = None ->
  joined u = s.
Proof.
  intros H Hc. parsed_cases H.
  - clear Hc.
    destruct ui0, po0;
      (destruct pa0 as [pa|]; [destruct q0, f0 | destruct Hpa as [-> ->]]);
      unfold joined, canonical, piece; slots; norm; reflexivity.
  - unfold joined, piece. slots. norm. reflexivity.
  - destruct Hc as [Hc | Hc]; discriminate Hc.
Qed.

Lemma parse_loses_nothing_witness :
  uri_parse sample_input = Ok (Some sample_parsed) /\
  (present (host sample_parsed) = true \/ build sample_parsed = None) /\
  joined sample_parsed = sample_input.
Proof.
  split; [reflexivity |]. split; [left; reflexivity |].
  apply (parse_loses_nothing sample_input sample_parsed eq_refl).
  left. reflexivity.
Defined.

(** X10: parsing an input shorter than [INT_MAX] and then asking for the
    canonical string gives back the input exactly when the parser returned
    before the build, that is when the cache slot of the parsed store is
    null. *)
Theorem parse_get_roundtrip_iff (s : string) (u : uri_t) :
  uri_parse s = Ok (Some u) ->
  (N.of_nat (length s) < INT_MAX)%N ->
  (build u = None <-> exists u', uri_get u = Ok (Some s, u')).
Proof.
  intros H Hlen. apply parsed_store_shapes in H.
  destruct H as [(u0 & sc & h & Hp & -> & ->)
                | [(sc & r & Hsc & Hr & -> & ->)
                  | (sc & p & t & Hsc & Hp & -> & ->)]].
  - destruct Hp as (_ & _ & Eh & _).
    pose proof (reparsed_size u0 sc h Eh) as Hsize.
    destruct u0 as [b0 s0 ui0 ho0 po0 pa0 q0 f0].
    cbn [host] in Eh. subst ho0.
    unfold reparsed, reparsed_slots in *.
    cbn [scheme userinfo host port path query fragment] in *.
    destruct q0 as [q|], f0 as [f|];
      cbn [present orb option_map] in *;
      rewrite uri_get_spec with (s := sc) by reflexivity;
      rewrite ?fitsb_with_build; cbn [with_build build].
    1-3: split; [discriminate |];
      intros (u' & E); destruct (fitsb _); [| discriminate E];
      injection E as E _; exfalso;
      apply (f_equal length) in E; revert E;
      destruct ui0, po0, pa0; lengths.
    split; [| reflexivity]. intros _.
    rewrite fitsb_true by (unfold build_fits; rewrite Hsize; lia).
    eexists. reflexivity.
  - rewrite uri_get_spec with (s := sc) by reflexivity.
    split; [| reflexivity]. intros _.
    rewrite fitsb_true.
    + eexists. do 3 f_equal.
      unfold canonical, piece. slots. norm. reflexivity.
    + unfold build_fits, total_size, add_len.
      cbn [scheme userinfo host port path query fragment].
      repeat rewrite length_append in Hlen. cbn [length] in Hlen. lia.
  - rewrite uri_get_spec with (s := sc) by reflexivity.
    split; [discriminate |].
    intros (u' & E). destruct (fitsb _); [| discriminate E].
    injection E as E _. exfalso.
    apply (f_equal length) in E. revert E. lengths.
Qed.

Lemma parse_get_roundtrip_iff_witness :
  uri_parse "http://user@host:80/path" =
    Ok (Some (mk_uri None (Some "http") (Some "user") (Some "host")
                (Some "80") (Some "/path") None None)) /\
  (N.of_nat (length "http://user@host:80/path") < INT_MAX)%N /\
  exists u',
    uri_get (mk_uri None (Some "http") (Some "user") (Some "host")
               (Some "80") (Some "/path") None None) =
    Ok (Some "http://user@host:80/path", u').
Proof.
  split; [reflexivity |]. split; [reflexivity |].
  apply (proj1 (parse_get_roundtrip_iff "http://user@host:80/path" _
                  eq_refl eq_refl)).
  reflexivity.
Defined.
(** ** The parser, shape by shape *)

(** X1: build, then parse: the parser takes the canonical string of a
    [parseable] store, when it has fewer than [INT_MAX - 2] characters,
    apart into the slots it was built from, except that the
    query and the fragment come back with their [?] and [#], and that the
    cache is built only when one of the two is present. *)
Theorem parse_takes_canonical_string_apart (u : uri_t) (sc h : string) :
  parseable u sc h ->
  (N.of_nat (length (canonical u sc)) + 2 < INT_MAX)%N ->
  uri_parse (canonical u sc) = Ok (Some (reparsed u sc)).
Proof.
  intros Hp Hlen. rewrite (uri_parse_canonical u sc h Hp).
  destruct Hp as (_ & _ & Eh & _).
  rewrite fitsb_true; [now destruct (present (query u) || present (fragment u)) |].
  unfold build_fits. rewrite (reparsed_size u sc h Eh).
  destruct (present (query u)), (present (fragment u)); lia.
Qed.

Lemma parse_takes_canonical_string_apart_witness :
  parseable example_store "http" "host" /\
  (N.of_nat (length (canonical example_store "http")) + 2 < INT_MAX)%N /\
  uri_parse "http://user@host:80/path?q#f" =
  Ok (Some (mk_uri (Some "http://user@host:80/path??q##f") (Some "http")
              (Some "user") (Some "host") (Some "80") (Some "/path")
              (Some "?q") (Some "#f"))).
Proof.
  split; [exact example_store_parseable |]. split; [reflexivity |].
  exact (parse_takes_canonical_string_apart example_store "http" "host"
           example_store_parseable eq_refl).
Defined.

(** X2: an input with no slash after its first colon: the whole rest is the
    path, no other slot is filled and the cache is not built. *)
Theorem parse_without_slash (sc r : string) :
  free_of [":"%char] sc -> free_of ["/"%char] r ->
  uri_parse (sc ++ ":" ++ r) =
  Ok (Some (mk_uri None (Some sc) None None None (Some r) None None)).
Proof. apply uri_parse_opaque. Qed.

Lemma parse_without_slash_witness :
  free_of [":"%char] "mailto" /\ free_of ["/"%char] "a@b.c?x#y" /\
  uri_parse "mailto:a@b.c?x#y" =
  Ok (Some (mk_uri None (Some "mailto") None None None (Some "a@b.c?x#y")
              None None)).
Proof.
  split; [now apply free_ofb_sound |]. split; [now apply free_ofb_sound |].
  apply (parse_without_slash "mailto" "a@b.c?x#y");
    now apply free_ofb_sound.
Defined.

(** X3: an input whose first colon is not followed by two slashes, with a
    slash further on: the path is the text between the colon and the first
    slash, everything from that slash on is dropped, and the cache is the
    scheme, a colon and that path; when scheme, colon, path and terminator
    do not fit an [int], the parse has no defined result. *)
Theorem parse_cuts_path_at_slash (sc p t : string) :
  free_of [":"%char] sc -> free_of ["/"%char] p ->
  (p = "" -> ~ begins_with "/" t) ->
  uri_parse (sc ++ ":" ++ p ++ "/" ++ t) =
  if (N.of_nat (length sc + length p) + 1 <? INT_MAX)%N
  then Ok (Some (mk_uri (Some (sc ++ ":" ++ p)) (Some sc) None None None
                   (Some p) None None))
  else Undefined.
Proof.
  intros Hsc Hp Ht. rewrite (uri_parse_opaque_slash sc p t Hsc Hp Ht).
  replace (fitsb (mk_uri None (Some sc) None None None (Some p) None None))
    with (N.of_nat (length sc + length p) + 1 <? INT_MAX)%N; [reflexivity |].
  unfold fitsb, total_size, add_len.
  cbn [scheme userinfo host port path query fragment]. f_equal. lia.
Qed.

Lemma parse_cuts_path_at_slash_witness :
  free_of [":"%char] "file" /\ free_of ["/"%char] "" /\
  ("" = "" -> ~ begins_with "/" "etc/hosts") /\
  uri_parse "file:/etc/hosts" =
  Ok (Some (mk_uri (Some "file:") (Some "file") None None None (Some "")
              None None)).
Proof.
  assert (H : "" = "" -> ~ begins_with "/" "etc/hosts")
    by (intros _ (r & E); discriminate E).
  split; [now apply free_ofb_sound |]. split; [now apply free_ofb_sound |].
  split; [exact H |].
  apply (parse_cuts_path_at_slash "file" "" "etc/hosts");
    [now apply free_ofb_sound | now apply free_ofb_sound | exact H].
Defined.


(** ** Tokens *)

(** X11: [copy_substring] gives the characters between its two pointers. *)
Theorem copy_substring_between (pre w : string) :
  copy_substring (pre ++ w) w = pre /\
  length (copy_substring (pre ++ w) w) + length w = length (pre ++ w).
Proof.
  rewrite copy_substring_prefix. split; [reflexivity |].
  now rewrite length_append.
Qed.

(** X12: one step of the scanner: the token copied between a cursor and the
    place where a loop leaves it has no stop character, is followed in the
    input by the rest the loop did not read, and that rest is empty or
    begins with a stop character. *)
Theorem scan_cuts_token (stops : list ascii) (w : string) :
  let rest := scan (is_one_of stops) w in
  let token := copy_substring w rest in
  token ++ rest = w /\ free_of stops token /\
  (rest = "" \/ exists a r, rest = String a r /\ In a stops).
Proof.
  cbv zeta. split; [apply token_rest | split; [apply token_free_of |]].
  destruct (scan_stops (is_one_of stops) w) as [E | (a & r & E & Ha)].
  - now left.
  - right. exists a, r. split; [exact E | now apply is_one_of_In].
Qed.

(** ** The buffer of the builder *)



(** X14: [uri_get] is idempotent on a store with a scheme and a size that fits
    an [int]: a second call returns the same string and leaves the store
    as the first call left it, whatever the cache held before. *)
Theorem uri_get_idempotent (u : uri_t) (s : string) :
  scheme u = Some s -> build_fits u ->
  exists c u1,
    uri_get u = Ok (Some c, u1) /\
    uri_get u1 = Ok (Some c, u1) /\
    forall b, uri_get (with_build u b) = Ok (Some c, u1).
Proof.
  intros H Hf. exists (canonical u s), (with_build u (Some (canonical u s))).
  split; [now apply uri_get_canonical |].
  destruct u as [b sc ui h po pa q f]. cbn [scheme] in H. subst sc.
  split; [| intros b'];
    rewrite uri_get_canonical with (s := s) by (reflexivity || exact Hf);
    reflexivity.
Qed.

Lemma uri_get_idempotent_witness :
  scheme example_store = Some "http" /\ build_fits example_store /\
  exists c u1,
    uri_get example_store = Ok (Some c, u1) /\
    uri_get u1 = Ok (Some c, u1) /\
    forall b, uri_get (with_build example_store b) = Ok (Some c, u1).
Proof.
  split; [reflexivity |]. split; [reflexivity |].
  apply (uri_get_idempotent example_store "http"); reflexivity.
Defined.

(** X15: [uri_print] after [uri_get], on a store with a scheme and a size that
    fits an [int], writes the string that [uri_get] returned. *)
Theorem uri_print_after_get (u : uri_t) (s : string) :
  scheme u = Some s -> build_fits u ->
  exists c u1, uri_get u = Ok (Some c, u1) /\ uri_print u1 = c /\
               c = canonical u s.
Proof.
  intros H Hf. exists (canonical u s), (with_build u (Some (canonical u s))).
  split; [now apply uri_get_canonical | split; reflexivity].
Qed.

Lemma uri_print_after_get_witness :
  scheme example_store = Some "http" /\ build_fits example_store /\
  exists c u1, uri_get example_store = Ok (Some c, u1) /\ uri_print u1 = c /\
               c = "http://user@host:80/path?q#f".
Proof.
  split; [reflexivity |]. split; [reflexivity |].
  apply (uri_print_after_get example_store "http"); reflexivity.
Defined.

(** ** Sequences of accessor calls *)

(** X16: the last [uri_set] on a slot wins: an earlier one on the same slot
    leaves no trace. *)
Theorem uri_set_twice (e : uri_element_t) (a b : option string)
        (u : uri_t) :
  (uri_set e a ;; uri_set e b) u = uri_set e b u.
Proof.
  destruct u, e, a, b; reflexivity.
Qed.

(** X17: two [uri_set] on different slots give the same store in either
    order. *)
Theorem uri_set_commute (e1 e2 : uri_element_t) (a b : option string)
        (u : uri_t) :
  e1 <> e2 ->
  (uri_set e1 a ;; uri_set e2 b) u = (uri_set e2 b ;; uri_set e1 a) u.
Proof.
  intros H. destruct u, e1, e2; try congruence; destruct a, b; reflexivity.
Qed.

Lemma uri_set_commute_witness :
  PATH <> QUERY /\
  (uri_set PATH (Some "/c") ;; uri_set QUERY None) example_store =
  (uri_set QUERY None ;; uri_set PATH (Some "/c")) example_store.
Proof.
  split; [discriminate |].
  apply (uri_set_commute PATH QUERY (Some "/c") None example_store).
  discriminate.
Defined.

(** X18: [uri_remove] undoes a [uri_set] on a slot that was empty: the store
    is again what it was. *)
Theorem uri_remove_after_set (e : uri_element_t) (v : option string)
        (u : uri_t) :
  slot u e = Ok None ->
  exists r, (uri_set e v ;; uri_remove e) u = Ok (r, u).
Proof.
  intros H. destruct u, e; try discriminate H; cbn [slot] in H;
    injection H as ->; destruct v; eexists; reflexivity.
Qed.

Lemma uri_remove_after_set_witness :
  slot calloc_uri PATH = Ok None /\
  exists r, (uri_set PATH (Some "/c") ;; uri_remove PATH) calloc_uri
            = Ok (r, calloc_uri).
Proof.
  split; [reflexivity |].
  apply (uri_remove_after_set PATH (Some "/c") calloc_uri). reflexivity.
Defined.

(** X19: a second [uri_remove] on the same slot returns the null pointer and
    changes nothing more. *)
Theorem uri_remove_twice (e : uri_element_t) (u : uri_t) :
  e <> URI_END ->
  exists r u1, uri_remove e u = Ok (r, u1) /\
               uri_remove e u1 = Ok (None, u1).
Proof.
  intros H. destruct u, e; try congruence; do 2 eexists; split; reflexivity.
Qed.

Lemma uri_remove_twice_witness :
  HOST <> URI_END /\
  exists r u1, uri_remove HOST example_store = Ok (r, u1) /\
               uri_remove HOST u1 = Ok (None, u1).
Proof.
  split; [discriminate |].
  apply (uri_remove_twice HOST example_store). discriminate.
Defined.

(** X20: once the scheme is removed, or set to the null pointer, the canonical
    string can no longer be asked for: [uri_get] and [uri_build] read
    through the null scheme. *)
Theorem uri_get_without_scheme (u : uri_t) :
  (uri_remove SCHEME ;; uri_get) u = Undefined /\
  (uri_set SCHEME None ;; uri_get) u = Undefined /\
  (uri_set SCHEME None ;; uri_build) u = Undefined.
Proof.
  destruct u. repeat split;
    cbv beta iota delta [bind uri_remove uri_set load store slot ret
                           copy_string];
    try apply uri_get_undefined; now apply uri_build_null_scheme.
Qed.

(** ** The dump of the slots *)

Lemma append_cancel_l (a x y : string) : a ++ x = a ++ y -> x = y.
Proof.
  induction a as [|c a IH]; simpl; intros H; [exact H |].
  injection H as H. now apply IH.
Qed.

(** A line ends at its first newline. *)
Lemma line_unique (a b x y : string) :
  free_of [newline] a -> free_of [newline] b ->
  a ++ String newline x = b ++ String newline y -> a = b /\ x = y.
Proof.
  revert b. induction a as [|c a IH]; intros [|d b] Ha Hb H; simpl in H.
  - now injection H as ->.
  - injection H as <- _. apply free_of_cons in Hb.
    exfalso. apply (proj1 Hb). now left.
  - injection H as -> _. apply free_of_cons in Ha.
    exfalso. apply (proj1 Ha). now left.
  - injection H as -> H. apply free_of_cons in Ha, Hb.
    destruct (IH b (proj2 Ha) (proj2 Hb) H) as [-> ->]. now split.
Qed.

Lemma element_text_plain (p : option string) :
  opt_free_of [newline] p -> free_of [newline] (element_text p).
Proof.
  destruct p as [t|]; cbn [opt_free_of element_text]; intros H.
  - cbn [append]. repeat (apply free_of_cons_other; [reflexivity |]).
    exact H.
  - apply free_of_empty.
Qed.

Lemma element_text_inj (p p' : option string) :
  element_text p = element_text p' -> p = p'.
Proof.
  destruct p, p'; cbn; intros H; try discriminate H; [| reflexivity].
  now injection H as ->.
Qed.

(** The line of one slot, followed by the rest of the dump, determines
    the slot and the rest. *)
Lemma print_element_unique (i : nat) (p p' : option string) (r r' : string) :
  opt_free_of [newline] p -> opt_free_of [newline] p' ->
  print_element i p ++ r = print_element i p' ++ r' -> p = p' /\ r = r'.
Proof.
  intros Hp Hp'. unfold print_element. norm. intros H.
  apply append_cancel_l in H.
  apply line_unique in H; try now apply element_text_plain.
  destruct H as [H ->]. split; [now apply element_text_inj | reflexivity].
Qed.

(** X21: the dump of [uri_print_elements] tells two stores apart whenever no
    slot of either holds a newline. *)
Theorem uri_print_elements_injective (u v : uri_t) :
  plain u -> plain v ->
  uri_print_elements u = uri_print_elements v -> u = v.
Proof.
  destruct u as [b s ui h po pa q f], v as [b' s' ui' h' po' pa' q' f'].
  unfold plain, uri_print_elements.
  cbn [build scheme userinfo host port path query fragment].
  intros (Hb & Hs & Hui & Hh & Hpo & Hpa & Hq & Hf)
         (Hb' & Hs' & Hui' & Hh' & Hpo' & Hpa' & Hq' & Hf') H.
  apply print_element_unique in H; [| assumption ..]. destruct H as [-> H].
  apply print_element_unique in H; [| assumption ..]. destruct H as [-> H].
  apply print_element_unique in H; [| assumption ..]. destruct H as [-> H].
  apply print_element_unique in H; [| assumption ..]. destruct H as [-> H].
  apply print_element_unique in H; [| assumption ..]. destruct H as [-> H].
  apply print_element_unique in H; [| assumption ..]. destruct H as [-> H].
  apply print_element_unique in H; [| assumption ..]. destruct H as [-> H].
  rewrite <- (append_empty_r (print_element 7 f)) in H.
  rewrite <- (append_empty_r (print_element 7 f')) in H.
  apply print_element_unique in H; [| assumption ..]. destruct H as [-> _].
  reflexivity.
Qed.

Lemma uri_print_elements_injective_witness :
  plain example_store /\ plain example_store /\
  uri_print_elements example_store = uri_print_elements example_store /\
  example_store = example_store.
Proof.
  assert (H : plain example_store).
  { unfold plain. cbn [example_store build scheme userinfo host port path
                         query fragment opt_free_of].
    repeat (split; [first [exact I | now apply free_ofb_sound] |]).
    now apply free_ofb_sound. }
  split; [exact H |]. split; [exact H |]. split; [reflexivity |].
  exact (uri_print_elements_injective example_store example_store H H
           eq_refl).
Defined.
